(** * pex.cli.commands.lock: the [pex lock create] and [pex lock export] commands

    A shallow embedding of [Lock._create] and [Lock._export] from
    [src/pex/cli/commands/lock.py], together with the properties of the
    lock-selection and lock-export algorithm.

    Conventions.
    - Python objects that the command only passes around (requirements,
      targets, locked resolves) are type parameters; what the command asks of
      them ([str], [repr], [==], [platform_tag], [emit_requirements]) is a
      type class.
    - Collaborators that live in other modules ([lockfile.load],
      [Lockfile.select], [resolver.download], the requirement parser) are the
      fields of a record the commands are run against. Configuration values
      the commands only hand over (resolver version, network configuration,
      interpreters, platforms, lock style) are carried as strings.
    - Effects are explicit: a command is a function from the trace of
      observable calls so far to an outcome and the extended trace.
    - Dictionaries are insertion ordered (Python 3.7 and later), so a [dict]
      is an association list with unique keys. *)

From Stdlib Require Import Ascii.
From stdpp Require Import base list sets strings pretty.

Local Open Scope string_scope.
Local Open Scope list_scope.

(** ** Python rendering: [str()], [repr()] and [str.format] pieces *)

(** [str(x)], which is also what a bare replacement field [{x}] renders. *)
Class Str (A : Type) := str : A → string.
(** [repr(x)], which is what [{x!r}] renders. *)
Class Repr (A : Type) := repr : A → string.
Global Hint Mode Str ! : typeclass_instances.
Global Hint Mode Repr ! : typeclass_instances.

Global Instance str_string : Str string := λ s, s.
(** [str] of a non-negative [int] is its decimal numeral. *)
Global Instance str_nat : Str nat := pretty.

(** [sep.join(items)]. *)
Definition join (sep : string) (items : list string) : string :=
  String.concat sep items.

(** [str] of a Python [list]: the [repr] of every element, comma separated,
    in brackets. *)
Global Instance str_list `{Repr A} : Str (list A) :=
  λ xs, "[" +:+ join ", " (repr <$> xs) +:+ "]".

(** The truth value of a list: [if xs:] holds when [xs] is not empty. *)
Definition truth {A} (xs : list A) : bool :=
  match xs with [] => false | _ :: _ => true end.

(** [enumerate(xs, start)]. *)
Fixpoint enumerate {A} (start : nat) (xs : list A) : list (nat * A) :=
  match xs with
  | [] => []
  | x :: xs' => (start, x) :: enumerate (S start) xs'
  end.

(** ** pex.common.pluralize *)

(** Modelled from the spec: [pex.common.pluralize] is imported by [lock.py]
    but is not among the modelled sources. The specification fixes its
    result for the one noun the command uses: the noun itself ("lock") when
    the subject has exactly one element and the noun followed by "s"
    ("locks") otherwise. *)
Definition pluralize {A} (subject : list A) (noun : string) : string :=
  if decide (length subject = 1) then noun else noun +:+ "s".

(** ** The selection mapping: [defaultdict(list)] keyed by locked resolve *)

Section selection_mapping.
Context {R T : Type} `{EqDecision R}.

(** An insertion-ordered dictionary from locked resolves to target lists. *)
Definition SelectedLocks : Type := list (R * list T).

(** [d[k].append(v)] on a [defaultdict(list)]: a present key has [v]
    appended to its list in place (the key keeps its position); a missing
    key is first inserted, at the end, with the empty list. *)
Fixpoint defaultdict_append (d : SelectedLocks) (k : R) (v : T)
  : SelectedLocks :=
  match d with
  | [] => [(k, [v])]
  | (k', vs) :: d' =>
      if decide (k' = k) then (k', vs ++ [v]) :: d'
      else (k', vs) :: defaultdict_append d' k v
  end.

(** The loop of [_export]:
    [[
      selected_locks = defaultdict(list)
      for target, locked_resolve in lf.select(targets):
          selected_locks[locked_resolve].append(target)
    ]] *)
Definition selected_locks (stream : list (T * R)) : SelectedLocks :=
  fold_left
    (λ d '(target, locked_resolve), defaultdict_append d locked_resolve target)
    stream [].

(** *** What the specification says the grouping is *)

(** The distinct elements of [l], each at the position of its first
    occurrence. *)
Fixpoint first_seen (l : list R) : list R :=
  match l with
  | [] => []
  | r :: l' => r :: filter (λ r', r' ≠ r) (first_seen l')
  end.

(** The targets that selected [r], in stream order. *)
Definition targets_selecting (r : R) (stream : list (T * R)) : list T :=
  (filter (λ p, p.2 = r) stream).*1.

(** The grouping in the specification's words: every locked resolve of the
    stream, in first-seen order, with the targets that selected it. *)
Definition grouping_spec (stream : list (T * R)) : SelectedLocks :=
  (λ r, (r, targets_selecting r stream)) <$> first_seen (stream.*2).

End selection_mapping.

(** ** pex.commands.command: results of a command *)

Inductive Result :=
| Ok
| Error (message : string).

Global Instance Result_eq_dec : EqDecision Result.
Proof. solve_decision. Defined.

(** ** ExportFormat *)

Module ExportFormat.
(** Modelled from the spec: the base class [Enum.Value] is defined in
    [pex.enum], which is not among the modelled sources. By the
    specification an enumeration is a closed set of recognised string values;
    a value wraps its string, and values with different strings differ. *)
Inductive Value := MkValue (value : string).

Definition value (v : Value) : string := let 'MkValue s := v in s.

Global Instance Value_eq_dec : EqDecision Value.
Proof. solve_decision. Defined.

Definition PIP : Value := MkValue "pip".
Definition PEP_665 : Value := MkValue "pep-665".
End ExportFormat.

(** ** The objects the commands read and build *)

(** [pex.requirements.LocalProjectRequirement]; the command reads [path]. *)
Record LocalProjectRequirement := { path : string }.

(** A parsed requirement is a local project or an object with a
    [requirement] attribute. *)
Inductive ParsedRequirement {Requirement : Type} :=
| LocalProject (project : LocalProjectRequirement)
| Parsed (requirement : Requirement).
Arguments ParsedRequirement : clear implicits.

(** A parsed constraint; the command reads [requirement]. *)
Record Constraint {Requirement : Type} := { requirement : Requirement }.
Arguments Constraint : clear implicits.

(** [lockfile.ParseError]; [str(e)] is the message it was raised with. *)
Record ParseError := { parse_error_message : string }.
Global Instance str_ParseError : Str ParseError := parse_error_message.

Module RequirementConfiguration.
Record t := {
  requirements : list string;
  requirement_files : list string;
  constraint_files : list string;
}.
End RequirementConfiguration.

Module ReposConfiguration.
Record t := { indexes : list string; find_links : list string }.
End ReposConfiguration.

Module PipConfiguration.
Record t := {
  resolver_version : string;
  allow_prereleases : bool;
  allow_wheels : bool;
  allow_builds : bool;
  transitive : bool;
  max_jobs : nat;
  repos_configuration : ReposConfiguration.t;
  network_configuration : string;
}.
End PipConfiguration.

Module TargetConfiguration.
Record t := {
  interpreters : list string;
  platforms : list string;
  assume_manylinux : option string;
}.
End TargetConfiguration.

(** [LockConfiguration(style=...)]. *)
Record LockConfiguration := { style : string }.

(** The keyword arguments of [resolver.download], as [_create] passes them. *)
Module DownloadRequest.
Record t := {
  requirements : list string;
  requirement_files : list string;
  constraint_files : list string;
  allow_prereleases : bool;
  transitive : bool;
  interpreters : list string;
  platforms : list string;
  indexes : list string;
  find_links : list string;
  resolver_version : string;
  network_configuration : string;
  cache : string;
  build : bool;
  use_wheel : bool;
  assume_manylinux : option string;
  max_parallel_jobs : nat;
  lock_configuration : LockConfiguration;
  dest : option string;
}.
End DownloadRequest.

(** What [resolver.download] returns; the command reads [locked_resolves]. *)
Module Downloaded.
Record t {LockedResolve : Type} := { locked_resolves : list LockedResolve }.
Arguments t : clear implicits.
End Downloaded.

Module Lockfile.
(** Modelled from the spec: the [Lockfile] class and its [create]
    constructor live in [pex.cli.commands.lockfile], which is not among the
    modelled sources. By the specification the document is the aggregate
    of the tool version, the resolver configuration, the requirement and
    constraint objects it was given and the ordered sequence of locked
    resolves; [create] records its arguments. *)
Record t {Requirement LockedResolve : Type} := create {
  pex_version : string;
  resolver_version : string;
  requirements : list Requirement;
  constraints : list Requirement;
  allow_prereleases : bool;
  allow_wheels : bool;
  allow_builds : bool;
  transitive : bool;
  locked_resolves : list LockedResolve;
}.
Arguments t : clear implicits.
End Lockfile.

(** The parsed command line ([self.options]) as far as the two commands read
    it. The three [*_options.configure(self.options)] calls only read the
    options, so their results are fields. [lockfile] is a list because the
    argument is declared with [nargs=1]. *)
Module Options.
Record t := {
  format : ExportFormat.Value;
  lockfile : list string;
  style : string;
  requirement_configuration : RequirementConfiguration.t;
  pip_configuration : PipConfiguration.t;
  target_configuration : TargetConfiguration.t;
}.
End Options.

(** What the commands ask of a locked resolve: it is a dictionary key
    (hashable, compared with [==]) and has a platform tag, rendered with
    [str]. Its [emit_requirements] method is an observable call, below. *)
Class LockedResolveLike (R : Type) := {
  locked_resolve_eq_dec :: EqDecision R;
  platform_tag : R → string;
}.

(** What the commands ask of a target: [str] and [repr]. *)
Class TargetLike (T : Type) := {
  target_str :: Str T;
  target_repr :: Repr T;
}.

(** The line feed of the message templates. *)
Definition LF : string := String "010"%char EmptyString.

(** ** The commands *)

Section commands.
Context {Requirement Target LockedResolve : Type}.
Context `{!LockedResolveLike LockedResolve} `{!TargetLike Target}.
Context `{!Repr ExportFormat.Value}.

Local Abbreviation Lockfile := (Lockfile.t Requirement LockedResolve).

(** *** Collaborators *)

(** The functions of other modules that the commands call, and the two
    globals they read. [lockfile_load] either returns the document or
    raises [ParseError]; [resolver_download] either returns or raises a
    resolution error, which carries a message. *)
Record Collaborators := {
  parse_requirements :
    RequirementConfiguration.t → string → list (ParsedRequirement Requirement);
  parse_constraints :
    RequirementConfiguration.t → string → list (Constraint Requirement);
  resolver_download : DownloadRequest.t → string + Downloaded.t LockedResolve;
  lockfile_load : string → ParseError + Lockfile;
  Lockfile_select : Lockfile → list Target → list (Target * LockedResolve);
  unique_targets : TargetConfiguration.t → list Target;
  PEX_ROOT : string;
  __version__ : string;
}.

(** *** Observable calls, outcomes and the command monad *)

Inductive Event :=
| LoadLockfile (lockfile_path : string)
| Download (request : DownloadRequest.t)
| OpenOutput
| EmitRequirements (locked_resolve : LockedResolve)
| DumpJson (lf : Lockfile)
| CloseOutput.

Inductive Exception :=
| IndexError
| KeyError
| ResolveError (message : string).

Inductive Outcome (A : Type) :=
| Returned (a : A)
| Raised (e : Exception).
Global Arguments Returned {A} a.
Global Arguments Raised {A} e.

Definition Command (A : Type) : Type := list Event → Outcome A * list Event.

Global Instance Command_ret : MRet Command := λ A a trace, (Returned a, trace).

Global Instance Command_bind : MBind Command := λ A B k c trace,
  match c trace with
  | (Returned a, trace') => k a trace'
  | (Raised e, trace') => (Raised e, trace')
  end.

Definition raise {A} (e : Exception) : Command A := λ trace, (Raised e, trace).

Definition observe (ev : Event) : Command () :=
  λ trace, (Returned (), trace ++ [ev]).

(** A command run from the empty trace. *)
Definition run {A} (c : Command A) : Outcome A * list Event := c [].

(** [with self.output(self.options) as output: body]: the sink is opened,
    the body runs, and the sink is closed however the body ends. *)
Definition with_output {A} (body : Command A) : Command A := λ trace,
  let '(outcome, trace') := body (trace ++ [OpenOutput]) in
  (outcome, trace' ++ [CloseOutput]).

(** [xs[0]]. *)
Definition getitem0 {A} (xs : list A) : Command A :=
  match xs with
  | x :: _ => mret x
  | [] => raise IndexError
  end.

(** [d.popitem()]: the item inserted last. *)
Definition popitem {K V} (d : list (K * V)) : Command (K * V) :=
  match last d with
  | Some item => mret item
  | None => raise KeyError
  end.

Definition load (c : Collaborators) (lockfile_path : string)
  : Command (ParseError + Lockfile) :=
  observe (LoadLockfile lockfile_path);; mret (lockfile_load c lockfile_path).

Definition download (c : Collaborators) (request : DownloadRequest.t)
  : Command (Downloaded.t LockedResolve) :=
  observe (Download request);;
  match resolver_download c request with
  | inr downloaded => mret downloaded
  | inl message => raise (ResolveError message)
  end.

(** *** [Lock._create] *)

(** The loop that sorts the parsed requirements into [requirements] and
    [local_projects]. *)
Definition partition_parsed (parsed : list (ParsedRequirement Requirement))
  : list Requirement * list LocalProjectRequirement :=
  fold_left
    (λ '(requirements, local_projects) parsed_requirement,
       match parsed_requirement with
       | LocalProject project => (requirements, local_projects ++ [project])
       | Parsed requirement => (requirements ++ [requirement], local_projects)
       end)
    parsed ([], []).

(** The local projects among the parsed requirements, in input order. *)
Definition local_projects_of (parsed : list (ParsedRequirement Requirement))
  : list LocalProjectRequirement :=
  omap (λ p, match p with LocalProject project => Some project | Parsed _ => None end)
    parsed.

(** The requirement objects of the other parsed requirements, in input
    order. *)
Definition requirements_of (parsed : list (ParsedRequirement Requirement))
  : list Requirement :=
  omap (λ p, match p with LocalProject _ => None | Parsed requirement => Some requirement end)
    parsed.

(** The keyword arguments of the [resolver.download] call of [_create],
    from the local variables of the command. *)
Definition download_kwargs (c : Collaborators)
    (requirement_configuration : RequirementConfiguration.t)
    (pip_configuration : PipConfiguration.t)
    (network_configuration : string)
    (target_configuration : TargetConfiguration.t)
    (lock_configuration : LockConfiguration) : DownloadRequest.t := {|
  DownloadRequest.requirements :=
    RequirementConfiguration.requirements requirement_configuration;
  DownloadRequest.requirement_files :=
    RequirementConfiguration.requirement_files requirement_configuration;
  DownloadRequest.constraint_files :=
    RequirementConfiguration.constraint_files requirement_configuration;
  DownloadRequest.allow_prereleases :=
    PipConfiguration.allow_prereleases pip_configuration;
  DownloadRequest.transitive := PipConfiguration.transitive pip_configuration;
  DownloadRequest.interpreters :=
    TargetConfiguration.interpreters target_configuration;
  DownloadRequest.platforms :=
    TargetConfiguration.platforms target_configuration;
  DownloadRequest.indexes :=
    ReposConfiguration.indexes
      (PipConfiguration.repos_configuration pip_configuration);
  DownloadRequest.find_links :=
    ReposConfiguration.find_links
      (PipConfiguration.repos_configuration pip_configuration);
  DownloadRequest.resolver_version :=
    PipConfiguration.resolver_version pip_configuration;
  DownloadRequest.network_configuration := network_configuration;
  DownloadRequest.cache := PEX_ROOT c;
  DownloadRequest.build := PipConfiguration.allow_builds pip_configuration;
  DownloadRequest.use_wheel := PipConfiguration.allow_wheels pip_configuration;
  DownloadRequest.assume_manylinux :=
    TargetConfiguration.assume_manylinux target_configuration;
  DownloadRequest.max_parallel_jobs := PipConfiguration.max_jobs pip_configuration;
  DownloadRequest.lock_configuration := lock_configuration;
  DownloadRequest.dest := None;
|}.

Definition _create (c : Collaborators) (options : Options.t) : Command Result :=
  let requirement_configuration := Options.requirement_configuration options in
  let pip_configuration := Options.pip_configuration options in
  let network_configuration :=
    PipConfiguration.network_configuration pip_configuration in
  let '(requirements, local_projects) :=
    partition_parsed
      (parse_requirements c requirement_configuration network_configuration) in
  if truth local_projects then
    mret (Error (
      "Cannot create a lock for local project requirements. Given "
      +:+ str (length local_projects) +:+ ":" +:+ LF
      +:+ join LF ((λ '(index, project), str index +:+ ".) " +:+ path project)
                     <$> enumerate 1 local_projects)))
  else
    let constraints :=
      requirement <$>
        parse_constraints c requirement_configuration network_configuration in
    let target_configuration := Options.target_configuration options in
    let lock_configuration := {| style := Options.style options |} in
    downloaded ← download c
      (download_kwargs c requirement_configuration pip_configuration
         network_configuration target_configuration lock_configuration);
    let lf : Lockfile := {|
      Lockfile.pex_version := __version__ c;
      Lockfile.resolver_version :=
        PipConfiguration.resolver_version pip_configuration;
      Lockfile.requirements := requirements;
      Lockfile.constraints := constraints;
      Lockfile.allow_prereleases :=
        PipConfiguration.allow_prereleases pip_configuration;
      Lockfile.allow_wheels := PipConfiguration.allow_wheels pip_configuration;
      Lockfile.allow_builds := PipConfiguration.allow_builds pip_configuration;
      Lockfile.transitive := PipConfiguration.transitive pip_configuration;
      Lockfile.locked_resolves := Downloaded.locked_resolves downloaded;
    |} in
    with_output (observe (DumpJson lf));;
    mret Ok.

(** *** [Lock._export] *)

(** The error of the format check. *)
Definition unsupported_format_message : string :=
  "Only the " +:+ repr ExportFormat.PIP +:+ " lock format is supported currently.".

(** The report of the zero-groups branch. *)
Definition no_lock_message (locks : list LockedResolve)
    (lockfile_path : string) (targets : list Target) : string :=
  "Of the " +:+ str (length locks) +:+ " " +:+ pluralize locks "lock"
  +:+ " stored in " +:+ str lockfile_path
  +:+ ", none were applicable for the selected targets:" +:+ LF
  +:+ join LF ((λ '(index, target), str index +:+ ".) " +:+ str target)
                 <$> enumerate 1 targets).

(** The report of the several-groups branch. Inside the generator the loop
    variable [targets] is the target list of the group at hand. *)
Definition many_locks_message (locks : list LockedResolve)
    (lockfile_path : string)
    (selected_locks : list (LockedResolve * list Target)) : string :=
  "Only a single lock can be exported in the " +:+ repr ExportFormat.PIP
  +:+ " format." +:+ LF
  +:+ "There " +:+ (if decide (length locks = 1) then "was" else "were")
  +:+ " " +:+ str (length locks) +:+ " " +:+ pluralize locks "lock"
  +:+ " stored in " +:+ str lockfile_path
  +:+ " that were applicable for the selected targets:" +:+ LF
  +:+ join LF ((λ '(index, (lock, targets)),
                  str index +:+ ".) " +:+ platform_tag lock +:+ ": "
                  +:+ str targets)
                 <$> enumerate 1 selected_locks).

Definition _export (c : Collaborators) (options : Options.t) : Command Result :=
  if decide (Options.format options ≠ ExportFormat.PIP) then
    mret (Error unsupported_format_message)
  else
    lockfile_path ← getitem0 (Options.lockfile options);
    loaded ← load c lockfile_path;
    match loaded with
    | inl e => mret (Error (str e))
    | inr lf =>
        let target_configuration := Options.target_configuration options in
        let targets := unique_targets c target_configuration in
        (* [TRACER.timed] only times the loop. *)
        let selected_locks := selected_locks (Lockfile_select c lf targets) in
        if decide (length selected_locks = 1) then
          '(locked_resolve, _) ← popitem selected_locks;
          with_output (observe (EmitRequirements locked_resolve));;
          mret Ok
        else
          let locks := Lockfile.locked_resolves lf in
          if negb (truth selected_locks) then
            mret (Error (no_lock_message locks lockfile_path targets))
          else
            mret (Error (many_locks_message locks lockfile_path selected_locks))
    end.
End commands.

(** ** The selection query *)

Section selection_query.
Context {Requirement Target LockedResolve : Type}.

(** Modelled from the spec: [Lockfile.select] is a method of the document
    class in [pex.cli.commands.lockfile], which is not among the modelled
    sources. By the specification the query yields, for each target in turn,
    the (target, locked resolve) pairs of the stored locked resolves that
    apply to the target, where "applies to" is a capability of the locked
    resolve. *)
Definition select_applicable (applies_to : LockedResolve → Target → bool)
    (lf : Lockfile.t Requirement LockedResolve) (targets : list Target)
  : list (Target * LockedResolve) :=
  target ← targets;
  (λ locked_resolve, (target, locked_resolve)) <$>
    filter (λ locked_resolve, applies_to locked_resolve target = true)
      (Lockfile.locked_resolves lf).

End selection_query.

(** ** Reading a selection mapping back as a stream *)

Section selection_mapping_pairs.
Context {R T : Type}.

(** The (target, locked resolve) pairs a mapping stands for: group by group,
    every target of the group paired with the key of the group. *)
Definition mapping_pairs (d : list (R * list T)) : list (T * R) :=
  d ≫= λ '(locked_resolve, targets),
         (λ target, (target, locked_resolve)) <$> targets.
End selection_mapping_pairs.

(** ** A concrete invocation: two platforms, string targets *)

Module Fixture.
(** A locked resolve with a platform tag and its pinned requirements. *)
Record PinnedResolve := { tag : string; pins : list string }.

#[export] Instance PinnedResolve_eq_dec : EqDecision PinnedResolve.
Proof. solve_decision. Defined.

#[export] Instance PinnedResolve_like : LockedResolveLike PinnedResolve :=
  {| platform_tag := tag |}.

(** Targets are their names; [repr] of a plain string quotes it. *)
#[export] Instance string_target : TargetLike string :=
  {| target_str := λ s, s; target_repr := λ s, "'" +:+ s +:+ "'" |}.

#[export] Instance Value_repr : Repr ExportFormat.Value :=
  λ v, "'" +:+ ExportFormat.value v +:+ "'".

Definition linux : PinnedResolve :=
  {| tag := "linux_x86_64"; pins := ["ansicolors==1.1.8"] |}.
Definition macosx : PinnedResolve :=
  {| tag := "macosx_x86_64"; pins := ["ansicolors==1.1.8"; "appnope==0.1.2"] |}.

(** A target is served by the locked resolve of its platform. *)
Definition applies_to (r : PinnedResolve) (target : string) : bool :=
  bool_decide (target = "cp39-" +:+ tag r) || bool_decide (target = "cp310-" +:+ tag r).

Definition document (locked_resolves : list PinnedResolve)
  : Lockfile.t string PinnedResolve := {|
  Lockfile.pex_version := "2.1.50";
  Lockfile.resolver_version := "pip-2020-resolver";
  Lockfile.requirements := ["ansicolors"];
  Lockfile.constraints := [];
  Lockfile.allow_prereleases := false;
  Lockfile.allow_wheels := true;
  Lockfile.allow_builds := true;
  Lockfile.transitive := true;
  Lockfile.locked_resolves := locked_resolves;
|}.

Definition options (format : ExportFormat.Value) (lockfile_path : string)
    (platforms : list string) : Options.t := {|
  Options.format := format;
  Options.lockfile := [lockfile_path];
  Options.style := "strict";
  Options.requirement_configuration := {|
    RequirementConfiguration.requirements := ["ansicolors"];
    RequirementConfiguration.requirement_files := [];
    RequirementConfiguration.constraint_files := ["constraints.txt"];
  |};
  Options.pip_configuration := {|
    PipConfiguration.resolver_version := "pip-2020-resolver";
    PipConfiguration.allow_prereleases := false;
    PipConfiguration.allow_wheels := true;
    PipConfiguration.allow_builds := true;
    PipConfiguration.transitive := true;
    PipConfiguration.max_jobs := 4;
    PipConfiguration.repos_configuration :=
      {| ReposConfiguration.indexes := ["https://pypi.org/simple"];
         ReposConfiguration.find_links := [] |};
    PipConfiguration.network_configuration := "default";
  |};
  Options.target_configuration := {|
    TargetConfiguration.interpreters := [];
    TargetConfiguration.platforms := platforms;
    TargetConfiguration.assume_manylinux := Some "manylinux2014";
  |};
|}.

(** Collaborators: the file [lock.json] holds [stored]; every other path
    fails to parse; the resolver succeeds when [resolvable]; the targets are
    the requested platforms. *)
Definition collaborators (parsed : list (ParsedRequirement string))
    (stored : list PinnedResolve) (resolvable : bool)
  : Collaborators (Requirement := string) (Target := string)
      (LockedResolve := PinnedResolve) := {|
  parse_requirements := λ _ _, parsed;
  parse_constraints := λ _ _, [ {| requirement := "setuptools<60" |} ];
  resolver_download := λ _,
    if resolvable then inr {| Downloaded.locked_resolves := stored |}
    else inl "No matching distribution";
  lockfile_load := λ lockfile_path,
    if bool_decide (lockfile_path = "lock.json") then inr (document stored)
    else inl {| parse_error_message := "The lock file is not valid JSON" |};
  Lockfile_select := select_applicable applies_to;
  unique_targets := TargetConfiguration.platforms;
  PEX_ROOT := "~/.pex";
  __version__ := "2.1.50";
|}.
End Fixture.

(** * Properties *)

(** ** The grouping loop computes the grouping of the specification *)

Section selection_mapping_facts.
Context {R T : Type} `{EqDecision R}.

(** *** Facts on [first_seen] and [targets_selecting] *)

Lemma first_seen_elem_of (l : list R) (r : R) : r ∈ first_seen l ↔ r ∈ l.
Proof.
  induction l as [|x l IH]; simpl; [done|].
  rewrite !elem_of_cons, list_elem_of_filter, IH.
  destruct (decide (r = x)); tauto.
Qed.

Lemma first_seen_NoDup (l : list R) : NoDup (first_seen l).
Proof.
  induction l as [|x l IH]; simpl; [constructor|].
  constructor.
  - rewrite list_elem_of_filter. tauto.
  - by apply NoDup_filter.
Qed.

Lemma first_seen_snoc (l : list R) (r : R) :
  first_seen (l ++ [r]) =
    if decide (r ∈ l) then first_seen l else first_seen l ++ [r].
Proof.
  induction l as [|x l IH].
  - case_decide as Hin; [by apply elem_of_nil in Hin|done].
  - cbn [app first_seen]. rewrite IH.
    destruct (decide (r = x)) as [->|Hne].
    + rewrite (decide_True (P := x ∈ x :: l)) by apply list_elem_of_here.
      case_decide; [done|].
      by rewrite filter_app, filter_cons_False, filter_nil, app_nil_r by tauto.
    + destruct (decide (r ∈ l)) as [Hin|Hnin].
      * by rewrite decide_True by (by apply list_elem_of_further).
      * rewrite decide_False by (rewrite elem_of_cons; tauto).
        by rewrite filter_app, filter_cons_True, filter_nil by done.
Qed.

Lemma targets_selecting_snoc (r r' : R) (t : T) (stream : list (T * R)) :
  targets_selecting r (stream ++ [(t, r')]) =
    if decide (r' = r) then targets_selecting r stream ++ [t]
    else targets_selecting r stream.
Proof.
  unfold targets_selecting. rewrite filter_app, fmap_app.
  destruct (decide (r' = r)) as [->|Hne].
  - by rewrite filter_cons_True, filter_nil by done.
  - by rewrite filter_cons_False, filter_nil, app_nil_r by done.
Qed.

Lemma targets_selecting_unseen (r : R) (stream : list (T * R)) :
  r ∉ stream.*2 → targets_selecting r stream = [].
Proof.
  intros Hnin. unfold targets_selecting.
  induction stream as [|[t r'] s IH]; [done|].
  simpl in Hnin. rewrite not_elem_of_cons in Hnin. destruct Hnin as [Hne Hnin].
  rewrite filter_cons_False by (simpl; congruence). by apply IH.
Qed.

(** *** The loop step on a dictionary given as a table of a function *)

Lemma defaultdict_append_present (f : R → list T) (keys : list R) r t :
  NoDup keys → r ∈ keys →
  defaultdict_append ((λ k, (k, f k)) <$> keys) r t =
    (λ k, (k, if decide (r = k) then f k ++ [t] else f k)) <$> keys.
Proof.
  induction keys as [|k keys IH]; intros Hnd Hin; [by apply elem_of_nil in Hin|].
  apply NoDup_cons in Hnd as [Hk Hnd]. simpl.
  destruct (decide (k = r)) as [->|Hne].
  - rewrite decide_True by done. f_equal.
    apply list_fmap_ext. intros i k' Hk'.
    rewrite decide_False; [done|].
    intros ->. apply Hk. by eapply list_elem_of_lookup_2.
  - rewrite decide_False by done. f_equal.
    apply IH; [done|].
    apply elem_of_cons in Hin as [->|Hin]; [done|exact Hin].
Qed.

Lemma defaultdict_append_missing (f : R → list T) (keys : list R) r t :
  r ∉ keys →
  defaultdict_append ((λ k, (k, f k)) <$> keys) r t =
    ((λ k, (k, f k)) <$> keys) ++ [(r, [t])].
Proof.
  induction keys as [|k keys IH]; intros Hnin; [done|].
  apply not_elem_of_cons in Hnin as [Hne Hnin]. simpl.
  rewrite decide_False by done. f_equal. by apply IH.
Qed.

Lemma selected_locks_snoc (stream : list (T * R)) t r :
  selected_locks (stream ++ [(t, r)]) =
    defaultdict_append (selected_locks stream) r t.
Proof. unfold selected_locks. by rewrite fold_left_app. Qed.

(** The loop computes the grouping of the specification. *)
Lemma selected_locks_grouping (stream : list (T * R)) :
  selected_locks stream = grouping_spec stream.
Proof.
  induction stream as [|[t r] stream IH] using rev_ind; [done|].
  rewrite selected_locks_snoc, IH. unfold grouping_spec.
  rewrite fmap_app. simpl. rewrite first_seen_snoc.
  destruct (decide (r ∈ stream.*2)) as [Hin|Hnin].
  - rewrite defaultdict_append_present
      by (apply first_seen_NoDup || by apply first_seen_elem_of).
    apply list_fmap_ext. intros i k Hk.
    by rewrite targets_selecting_snoc.
  - rewrite defaultdict_append_missing by (by rewrite first_seen_elem_of).
    rewrite fmap_app. simpl. f_equal.
    + apply list_fmap_ext. intros i k Hk.
      rewrite targets_selecting_snoc, decide_False; [done|].
      intros ->. apply Hnin, first_seen_elem_of.
      by eapply list_elem_of_lookup_2.
    + rewrite targets_selecting_snoc, decide_True by done.
      by rewrite targets_selecting_unseen.
Qed.
End selection_mapping_facts.

(** ** Facts on the selection query *)

Section selection_query_facts.
Context {Requirement Target LockedResolve : Type}.
Implicit Types lf : Lockfile.t Requirement LockedResolve.

Lemma select_applicable_nil (applies_to : LockedResolve → Target → bool) lf :
  select_applicable applies_to lf [] = [].
Proof. reflexivity. Qed.

(** With one stored locked resolve that applies to every target, the stream
    pairs every target with it. *)
Lemma select_applicable_single (applies_to : LockedResolve → Target → bool)
    lf r targets :
  Lockfile.locked_resolves lf = [r] →
  (∀ t, t ∈ targets → applies_to r t = true) →
  select_applicable applies_to lf targets = (λ t, (t, r)) <$> targets.
Proof.
  intros Hlocks Happ. unfold select_applicable. rewrite Hlocks.
  induction targets as [|t targets IH]; [done|].
  rewrite bind_cons, fmap_cons, IH by (intros; apply Happ; by constructor).
  rewrite filter_cons_True by (apply Happ; constructor).
  by rewrite filter_nil.
Qed.
End selection_query_facts.

(** ** Facts on the Python helpers *)

Lemma length_enumerate {A} (start : nat) (xs : list A) :
  length (enumerate start xs) = length xs.
Proof. revert start. induction xs as [|x xs IH]; intros start; simpl; [done|]. by rewrite IH. Qed.

Lemma enumerate_lookup {A} (start : nat) (xs : list A) (i : nat) :
  enumerate start xs !! i = (λ x, (start + i, x)) <$> xs !! i.
Proof.
  revert start i. induction xs as [|x xs IH]; intros start [|i]; simpl; try done.
  - by rewrite Nat.add_0_r.
  - rewrite IH. by rewrite Nat.add_succ_r.
Qed.

(** The lines of an enumerated listing: line [i] (from 0) carries the
    index [i + 1] and the [i]-th item. *)
Lemma enumerate_lines_lookup {A} (render : nat * A → string) (xs : list A) i x :
  xs !! i = Some x →
  (render <$> enumerate 1 xs) !! i = Some (render (S i, x)).
Proof. intros Hx. by rewrite list_lookup_fmap, enumerate_lookup, Hx. Qed.

(** A list of two items is known by its length and its items. *)
Lemma list_of_two {A} (l : list A) (a b : A) :
  length l = 2 → l !! 0 = Some a → l !! 1 = Some b → l = [a; b].
Proof.
  destruct l as [|x [|y [|z l]]]; try discriminate.
  by intros _ [= ->] [= ->].
Qed.

Lemma pluralize_lock {A} (subject : list A) :
  pluralize subject "lock" = if decide (length subject = 1) then "lock" else "locks".
Proof. unfold pluralize. by case_decide. Qed.

Lemma selected_locks_nil_inv {R T} `{EqDecision R} (stream : list (T * R)) :
  selected_locks stream = [] → stream = [].
Proof.
  rewrite selected_locks_grouping. unfold grouping_spec.
  intros Hnil%fmap_nil_inv. destruct stream as [|[t r] stream]; [done|].
  discriminate Hnil.
Qed.

Lemma NoDup_two_distinct {A} (l : list A) (a b : A) :
  NoDup l → a ∈ l → b ∈ l → a ≠ b → (2 ≤ length l)%nat.
Proof.
  intros Hnd Ha Hb Hne.
  destruct l as [|x [|y l]]; simpl; [|exfalso|lia].
  - by apply elem_of_nil in Ha.
  - apply list_elem_of_singleton in Ha, Hb. congruence.
Qed.

(** ** Running [_export] and [_create], branch by branch *)

(** Unfold the monad and the effectful helpers of a command being run. *)
Ltac step_command :=
  repeat progress
    (unfold load, download, getitem0, popitem, with_output, observe, raise,
       mbind, mret, Command_bind, Command_ret; cbn).

Section command_runs.
Context {Requirement Target LockedResolve : Type}.
Context `{!LockedResolveLike LockedResolve} `{!TargetLike Target}.
Context `{!Repr ExportFormat.Value}.
Implicit Types c : Collaborators (Requirement := Requirement)
                     (Target := Target) (LockedResolve := LockedResolve).
Implicit Types options : Options.t.
Implicit Types lf : Lockfile.t Requirement LockedResolve.

Lemma export_run_unsupported c options :
  Options.format options ≠ ExportFormat.PIP →
  run (_export c options) = (Returned (Error unsupported_format_message), []).
Proof. intros Hfmt. unfold run, _export. by rewrite decide_True. Qed.

Lemma export_run_parse_error c options lockfile_path rest e :
  Options.format options = ExportFormat.PIP →
  Options.lockfile options = lockfile_path :: rest →
  lockfile_load c lockfile_path = inl e →
  run (_export c options) =
    (Returned (Error (parse_error_message e)), [LoadLockfile lockfile_path]).
Proof.
  intros Hfmt Hpath Hload. unfold run, _export.
  rewrite decide_False by (by rewrite Hfmt; intros []).
  rewrite Hpath. step_command. by rewrite Hload.
Qed.

(** After a successful load the outcome is decided by the shape of the
    grouping alone. *)
Lemma export_run_loaded c options lockfile_path rest lf :
  Options.format options = ExportFormat.PIP →
  Options.lockfile options = lockfile_path :: rest →
  lockfile_load c lockfile_path = inr lf →
  run (_export c options) =
    let targets := unique_targets c (Options.target_configuration options) in
    match selected_locks (Lockfile_select c lf targets) with
    | [] =>
        (Returned (Error (no_lock_message (Lockfile.locked_resolves lf)
                            lockfile_path targets)),
         [LoadLockfile lockfile_path])
    | [(locked_resolve, _)] =>
        (Returned Ok,
         [LoadLockfile lockfile_path; OpenOutput;
          EmitRequirements locked_resolve; CloseOutput])
    | (_ :: _ :: _) as groups =>
        (Returned (Error (many_locks_message (Lockfile.locked_resolves lf)
                            lockfile_path groups)),
         [LoadLockfile lockfile_path])
    end.
Proof.
  intros Hfmt Hpath Hload. unfold run, _export.
  rewrite decide_False by (by rewrite Hfmt; intros []).
  rewrite Hpath. step_command. rewrite Hload.
  destruct (selected_locks _) as [|[r ts] [|g groups]]; cbn.
  all: case_decide as Hlen; cbn in Hlen; try lia; done.
Qed.
End command_runs.

(** ** [_create]: partition, rejection and assembly *)

Section create_facts.
Context {Requirement Target LockedResolve : Type}.
Context `{!LockedResolveLike LockedResolve} `{!TargetLike Target}.
Context `{!Repr ExportFormat.Value}.
Implicit Types c : Collaborators (Requirement := Requirement)
                     (Target := Target) (LockedResolve := LockedResolve).
Implicit Types options : Options.t.
Implicit Types parsed : list (ParsedRequirement Requirement).

Lemma partition_parsed_snoc parsed p :
  partition_parsed (parsed ++ [p]) =
    match p with
    | LocalProject project =>
        ((partition_parsed parsed).1, (partition_parsed parsed).2 ++ [project])
    | Parsed requirement =>
        ((partition_parsed parsed).1 ++ [requirement], (partition_parsed parsed).2)
    end.
Proof.
  unfold partition_parsed. rewrite fold_left_app. cbn.
  by destruct (fold_left _ parsed _), p.
Qed.

(** The loop is the order-preserving split of the parsed sequence. *)
Lemma partition_parsed_spec parsed :
  partition_parsed parsed = (requirements_of parsed, local_projects_of parsed).
Proof.
  induction parsed as [|p parsed IH] using rev_ind; [done|].
  rewrite partition_parsed_snoc, IH. unfold requirements_of, local_projects_of.
  rewrite !omap_app. destruct p; cbn; by rewrite ?app_nil_r.
Qed.

Lemma local_projects_of_elem_of parsed project :
  LocalProject project ∈ parsed ↔ project ∈ local_projects_of parsed.
Proof.
  unfold local_projects_of. rewrite list_elem_of_omap. split.
  - intros Hin. by exists (LocalProject project).
  - intros ([p|r] & Hin & Heq); simplify_eq. done.
Qed.

Lemma local_projects_of_Parsed (requirements : list Requirement) :
  local_projects_of (Parsed <$> requirements) = [].
Proof. induction requirements as [|r rs IH]; [done|]. exact IH. Qed.

Lemma requirements_of_Parsed (requirements : list Requirement) :
  requirements_of (Parsed <$> requirements) = requirements.
Proof.
  induction requirements as [|r rs IH]; [done|].
  unfold requirements_of in *. cbn. by rewrite IH.
Qed.

(** With a local project among the parsed requirements the command stops at
    the check. *)
Lemma create_run_rejected c options project projects :
  local_projects_of
    (parse_requirements c (Options.requirement_configuration options)
       (PipConfiguration.network_configuration (Options.pip_configuration options)))
  = project :: projects →
  run (_create c options) =
    (Returned (Error (
       "Cannot create a lock for local project requirements. Given "
       +:+ str (length (project :: projects)) +:+ ":" +:+ LF
       +:+ join LF ((λ '(index, project), str index +:+ ".) " +:+ path project)
                      <$> enumerate 1 (project :: projects)))),
     []).
Proof.
  intros Hlocal. unfold run, _create.
  rewrite partition_parsed_spec, Hlocal. reflexivity.
Qed.

(** Without one, the outcome is decided by [resolver.download]. *)
Lemma create_run_resolved c options :
  local_projects_of
    (parse_requirements c (Options.requirement_configuration options)
       (PipConfiguration.network_configuration (Options.pip_configuration options)))
  = [] →
  let requirement_configuration := Options.requirement_configuration options in
  let pip_configuration := Options.pip_configuration options in
  let network_configuration :=
    PipConfiguration.network_configuration pip_configuration in
  let request :=
    download_kwargs c requirement_configuration pip_configuration
      network_configuration (Options.target_configuration options)
      {| style := Options.style options |} in
  run (_create c options) =
    match resolver_download c request with
    | inl message => (Raised (ResolveError message), [Download request])
    | inr downloaded =>
        (Returned Ok,
         [Download request; OpenOutput;
          DumpJson {|
            Lockfile.pex_version := __version__ c;
            Lockfile.resolver_version :=
              PipConfiguration.resolver_version pip_configuration;
            Lockfile.requirements :=
              requirements_of
                (parse_requirements c requirement_configuration network_configuration);
            Lockfile.constraints :=
              requirement <$>
                parse_constraints c requirement_configuration network_configuration;
            Lockfile.allow_prereleases :=
              PipConfiguration.allow_prereleases pip_configuration;
            Lockfile.allow_wheels := PipConfiguration.allow_wheels pip_configuration;
            Lockfile.allow_builds := PipConfiguration.allow_builds pip_configuration;
            Lockfile.transitive := PipConfiguration.transitive pip_configuration;
            Lockfile.locked_resolves := Downloaded.locked_resolves downloaded;
          |};
          CloseOutput])
    end.
Proof.
  intros Hlocal. cbn zeta. unfold run, _create.
  rewrite partition_parsed_spec, Hlocal. cbn [truth].
  step_command. by destruct (resolver_download c _).
Qed.
End create_facts.

(** ** Facts on the grouping used by the export claims *)

Section grouping_facts.
Context {R T : Type} `{EqDecision R}.

(** A stream that pairs every target with the same locked resolve has one
    group, which holds all the targets. *)
Lemma selected_locks_constant (r : R) (t : T) (targets : list T) :
  selected_locks ((λ t, (t, r)) <$> (t :: targets)) = [(r, t :: targets)].
Proof.
  induction targets as [|t' targets IH] using rev_ind; [done|].
  rewrite app_comm_cons, fmap_app.
  change ((λ t0, (t0, r)) <$> [t']) with [(t', r)].
  rewrite selected_locks_snoc, IH. cbn. by rewrite decide_True.
Qed.

Lemma selected_locks_keys (stream : list (T * R)) :
  (selected_locks stream).*1 = first_seen (stream.*2).
Proof.
  rewrite selected_locks_grouping. unfold grouping_spec.
  rewrite <-list_fmap_compose. apply list_fmap_id.
Qed.

Lemma selected_locks_elem_of (stream : list (T * R)) (r : R) (ts : list T) :
  (r, ts) ∈ selected_locks stream ↔
    r ∈ stream.*2 ∧ ts = targets_selecting r stream.
Proof.
  rewrite selected_locks_grouping. unfold grouping_spec.
  split.
  - intros (r' & Heq & Hin)%list_elem_of_fmap_1.
    apply (proj1 (first_seen_elem_of _ _)) in Hin.
    injection Heq as -> ->. by split.
  - intros [Hin ->].
    apply (list_elem_of_fmap_2 (λ r, (r, targets_selecting r stream))).
    by apply (proj2 (first_seen_elem_of _ _)).
Qed.

Lemma selected_locks_two_distinct (stream : list (T * R)) (r1 r2 : R) :
  r1 ∈ stream.*2 → r2 ∈ stream.*2 → r1 ≠ r2 →
  ∃ g1 g2 groups, selected_locks stream = g1 :: g2 :: groups.
Proof.
  intros H1 H2 Hne.
  assert (2 ≤ length (selected_locks stream))%nat as Hlen.
  { rewrite <-(length_fmap fst), selected_locks_keys.
    apply (NoDup_two_distinct _ r1 r2);
      [apply first_seen_NoDup|by apply (proj2 (first_seen_elem_of _ _))..|done]. }
  destruct (selected_locks stream) as [|g1 [|g2 groups]];
    cbn in Hlen; [lia..|eauto].
Qed.
End grouping_facts.

(** * The claims *)

Section export_claims.
Context {Requirement Target LockedResolve : Type}.
Context `{!LockedResolveLike LockedResolve} `{!TargetLike Target}.
Context `{!Repr ExportFormat.Value}.
Implicit Types c : Collaborators (Requirement := Requirement)
                     (Target := Target) (LockedResolve := LockedResolve).
Implicit Types options : Options.t.
Implicit Types lf : Lockfile.t Requirement LockedResolve.

(** C1. A document with exactly one stored locked resolve, a non-empty target
    set, and that resolve applicable to every target: the selection stream
    groups under the single key [r], [export] returns [Ok], and the output
    sink receives exactly the [emit_requirements] call of [r], between the
    opening and the closing of the sink. *)
Theorem export_single_resolve_emitted c options applies_to lockfile_path lf r :
  Options.format options = ExportFormat.PIP →
  Options.lockfile options = [lockfile_path] →
  lockfile_load c lockfile_path = inr lf →
  Lockfile_select c = select_applicable applies_to →
  Lockfile.locked_resolves lf = [r] →
  unique_targets c (Options.target_configuration options) ≠ [] →
  (∀ target,
     target ∈ unique_targets c (Options.target_configuration options) →
     applies_to r target = true) →
  selected_locks
    (Lockfile_select c lf (unique_targets c (Options.target_configuration options)))
  = [(r, unique_targets c (Options.target_configuration options))]
  ∧ run (_export c options) =
      (Returned Ok,
       [LoadLockfile lockfile_path; OpenOutput; EmitRequirements r; CloseOutput]).
Proof.
  intros Hfmt Hpath Hload Hsel Hlocks Hne Happ.
  assert (selected_locks
            (Lockfile_select c lf
               (unique_targets c (Options.target_configuration options)))
          = [(r, unique_targets c (Options.target_configuration options))])
    as Hgroups.
  { rewrite Hsel, (select_applicable_single _ _ r) by done.
    destruct (unique_targets c _) as [|t targets]; [done|].
    apply selected_locks_constant. }
  split; [exact Hgroups|].
  rewrite (export_run_loaded c options lockfile_path [] lf) by done.
  cbn zeta. by rewrite Hgroups.
Qed.

(** C2. When the selection stream names two distinct locked resolves,
    [export] returns an error and leaves the sink untouched. The message says
    that only a single lock can be exported in the pip format, gives the
    count of stored locks with "was"/"lock" for one and "were"/"locks"
    otherwise, names the document path, and ends with the lines of the
    listing, separated by line feeds, one line per group: line [i] (from 0)
    carries the index [i + 1], the platform tag of the [i]-th group and the
    whole list of targets that selected it, each by its [repr], comma
    separated, in brackets. The groups have distinct keys, which are the
    locked resolves of the stream. *)
Theorem export_many_resolves_error c options lockfile_path lf r1 r2 :
  Options.format options = ExportFormat.PIP →
  Options.lockfile options = [lockfile_path] →
  lockfile_load c lockfile_path = inr lf →
  r1 ∈ (Lockfile_select c lf
          (unique_targets c (Options.target_configuration options))).*2 →
  r2 ∈ (Lockfile_select c lf
          (unique_targets c (Options.target_configuration options))).*2 →
  r1 ≠ r2 →
  let stream :=
    Lockfile_select c lf (unique_targets c (Options.target_configuration options)) in
  let count := length (Lockfile.locked_resolves lf) in
  ∃ entries : list string,
    run (_export c options) =
      (Returned (Error (
         "Only a single lock can be exported in the " +:+ repr ExportFormat.PIP
         +:+ " format." +:+ LF
         +:+ "There " +:+ (if decide (count = 1) then "was" else "were")
         +:+ " " +:+ str count
         +:+ " " +:+ (if decide (count = 1) then "lock" else "locks")
         +:+ " stored in " +:+ lockfile_path
         +:+ " that were applicable for the selected targets:" +:+ LF
         +:+ String.concat LF entries)),
       [LoadLockfile lockfile_path])
    ∧ (2 ≤ length (selected_locks stream))%nat
    ∧ length entries = length (selected_locks stream)
    ∧ NoDup (selected_locks stream).*1
    ∧ (∀ r, r ∈ (selected_locks stream).*1 ↔ r ∈ stream.*2)
    ∧ (∀ i r ts,
         selected_locks stream !! i = Some (r, ts) →
         ts = targets_selecting r stream
         ∧ entries !! i =
             Some (str (S i) +:+ ".) " +:+ platform_tag r +:+ ": "
                   +:+ ("[" +:+ String.concat ", " (repr <$> ts) +:+ "]"))).
Proof.
  intros Hfmt Hpath Hload H1 H2 Hne stream count.
  destruct (selected_locks_two_distinct stream r1 r2 H1 H2 Hne)
    as (g1 & g2 & groups & Hgroups).
  exists ((λ '(index, (lock, targets)),
             str index +:+ ".) " +:+ platform_tag lock +:+ ": " +:+ str targets)
            <$> enumerate 1 (selected_locks stream)).
  split; [|split; [|split; [|split; [|split]]]].
  - rewrite (export_run_loaded c options lockfile_path [] lf) by done.
    cbn zeta. fold stream. rewrite Hgroups.
    unfold many_locks_message. rewrite pluralize_lock. by destruct g1.
  - rewrite Hgroups. cbn. lia.
  - by rewrite length_fmap, length_enumerate.
  - rewrite selected_locks_keys. apply first_seen_NoDup.
  - intros r. rewrite selected_locks_keys. apply first_seen_elem_of.
  - intros i r ts Hi. split.
    + apply (selected_locks_elem_of stream r ts).
      by eapply list_elem_of_lookup_2.
    + by rewrite (enumerate_lines_lookup _ _ i (r, ts)).
Qed.

(** C3. When the grouping is empty, which is when the selection stream is
    empty, [export] returns an error and leaves the sink untouched. The
    message gives the count of stored locked resolves with "lock" for one and
    "locks" otherwise, names the document path, and ends with the lines of
    the listing, separated by line feeds, one line per requested target:
    line [i] (from 0) carries the index [i + 1] and the [i]-th target. *)
Theorem export_no_applicable_lock_error c options lockfile_path lf :
  Options.format options = ExportFormat.PIP →
  Options.lockfile options = [lockfile_path] →
  lockfile_load c lockfile_path = inr lf →
  selected_locks
    (Lockfile_select c lf (unique_targets c (Options.target_configuration options)))
  = [] →
  let targets := unique_targets c (Options.target_configuration options) in
  let count := length (Lockfile.locked_resolves lf) in
  ∃ entries : list string,
    run (_export c options) =
      (Returned (Error (
         "Of the " +:+ str count
         +:+ " " +:+ (if decide (count = 1) then "lock" else "locks")
         +:+ " stored in " +:+ lockfile_path
         +:+ ", none were applicable for the selected targets:" +:+ LF
         +:+ String.concat LF entries)),
       [LoadLockfile lockfile_path])
    ∧ Lockfile_select c lf targets = []
    ∧ length entries = length targets
    ∧ (∀ i target,
         targets !! i = Some target →
         entries !! i = Some (str (S i) +:+ ".) " +:+ str target)).
Proof.
  intros Hfmt Hpath Hload Hgroups targets count.
  exists ((λ '(index, target), str index +:+ ".) " +:+ str target)
            <$> enumerate 1 targets).
  split; [|split; [by apply selected_locks_nil_inv|split]].
  - rewrite (export_run_loaded c options lockfile_path [] lf) by done.
    cbn zeta. rewrite Hgroups.
    unfold no_lock_message. by rewrite pluralize_lock.
  - by rewrite length_fmap, length_enumerate.
  - intros i target Hi. by rewrite (enumerate_lines_lookup _ _ i target).
Qed.
(** C6. Any format other than pip, and pep-665 is one, makes [export] return
    the error that names the pip format, with an empty trace: the lock file
    is not loaded, so the outcome is the same whatever the collaborators and
    whatever the rest of the command line, the lock file path included. *)
Theorem export_unsupported_format_before_load c options :
  Options.format options ≠ ExportFormat.PIP →
  run (_export c options) =
    (Returned (Error ("Only the " +:+ repr ExportFormat.PIP
                      +:+ " lock format is supported currently.")),
     [])
  ∧ (∀ lockfile_path, LoadLockfile lockfile_path ∉ (run (_export c options)).2)
  ∧ (∀ c' options',
       Options.format options' = Options.format options →
       run (_export c' options') = run (_export c options))
  ∧ ExportFormat.PEP_665 ≠ ExportFormat.PIP.
Proof.
  intros Hfmt. rewrite export_run_unsupported by done.
  split; [done|]. split; [|split].
  - intros lockfile_path. apply not_elem_of_nil.
  - intros c' options' Heq. apply export_run_unsupported. by rewrite Heq.
  - discriminate.
Qed.

(** C8. When loading the lock file raises [ParseError], [export] returns an
    error instead of raising, and the message of the error is the message of
    the parse error. *)
Theorem export_parse_error_verbatim c options lockfile_path e :
  Options.format options = ExportFormat.PIP →
  Options.lockfile options = [lockfile_path] →
  lockfile_load c lockfile_path = inl e →
  run (_export c options) =
    (Returned (Error (parse_error_message e)), [LoadLockfile lockfile_path]).
Proof. intros Hfmt Hpath Hload. by eapply export_run_parse_error. Qed.

(** C9. [export] either returns [Ok], and then the grouping has exactly one
    key and the trace is: load, open the sink, emit the requirements of that
    key, close the sink; or it does not return [Ok], and then the sink is
    neither opened nor written nor closed. *)
Theorem export_no_partial_success c options :
  match run (_export c options) with
  | (Returned Ok, trace) =>
      ∃ lockfile_path lf r ts,
        lockfile_load c lockfile_path = inr lf
        ∧ selected_locks
            (Lockfile_select c lf
               (unique_targets c (Options.target_configuration options)))
          = [(r, ts)]
        ∧ trace =
            [LoadLockfile lockfile_path; OpenOutput; EmitRequirements r;
             CloseOutput]
  | (_, trace) =>
      (OpenOutput ∉ trace) ∧ (CloseOutput ∉ trace)
      ∧ (∀ r, EmitRequirements r ∉ trace) ∧ (∀ lf, DumpJson lf ∉ trace)
  end.
Proof.
  assert (∀ lockfile_path,
            let trace : list (@Event Requirement LockedResolve) :=
              [LoadLockfile lockfile_path] in
            (OpenOutput ∉ trace) ∧ (CloseOutput ∉ trace)
            ∧ (∀ r, EmitRequirements r ∉ trace)
            ∧ (∀ lf, DumpJson lf ∉ trace)) as Hquiet.
  { intros lockfile_path trace. subst trace.
    split; [|split; [|split]]; [| |intros r|intros lf];
      intros Hin%list_elem_of_singleton; discriminate. }
  destruct (decide (Options.format options = ExportFormat.PIP)) as [Hfmt|Hfmt].
  - destruct (Options.lockfile options) as [|lockfile_path rest] eqn:Hpath.
    + unfold run, _export. rewrite decide_False by (by rewrite Hfmt; intros []).
      rewrite Hpath. step_command.
      split; [|split; [|split]]; [| |intros r|intros lf]; apply not_elem_of_nil.
    + destruct (lockfile_load c lockfile_path) as [e|lf] eqn:Hload.
      * rewrite (export_run_parse_error c options lockfile_path rest e) by done.
        apply Hquiet.
      * rewrite (export_run_loaded c options lockfile_path rest lf) by done.
        cbn zeta.
        destruct (selected_locks _) as [|[r ts] [|g groups]] eqn:Hgroups.
        -- apply Hquiet.
        -- by exists lockfile_path, lf, r, ts.
        -- apply Hquiet.
  - rewrite export_run_unsupported by done.
    split; [|split; [|split]]; [| |intros r|intros lf]; apply not_elem_of_nil.
Qed.

(** C10. With the selection query of the specification, an empty target set
    gives an empty selection stream, and [export] on a loaded document
    returns the no-applicable-lock error: it reports the count of stored
    locked resolves and lists no target. It does not return [Ok]. *)
Theorem export_no_targets_error c options applies_to lockfile_path lf :
  Options.format options = ExportFormat.PIP →
  Options.lockfile options = [lockfile_path] →
  lockfile_load c lockfile_path = inr lf →
  Lockfile_select c = select_applicable applies_to →
  unique_targets c (Options.target_configuration options) = [] →
  let count := length (Lockfile.locked_resolves lf) in
  Lockfile_select c lf (unique_targets c (Options.target_configuration options))
  = []
  ∧ run (_export c options) =
      (Returned (Error (
         "Of the " +:+ str count
         +:+ " " +:+ (if decide (count = 1) then "lock" else "locks")
         +:+ " stored in " +:+ lockfile_path
         +:+ ", none were applicable for the selected targets:" +:+ LF
         +:+ join LF [])),
       [LoadLockfile lockfile_path])
  ∧ (run (_export c options)).1 ≠ Returned Ok.
Proof.
  intros Hfmt Hpath Hload Hsel Htargets count.
  assert (run (_export c options) =
            (Returned (Error (no_lock_message (Lockfile.locked_resolves lf)
                                lockfile_path [])),
             [LoadLockfile lockfile_path])) as Hrun.
  { rewrite (export_run_loaded c options lockfile_path [] lf) by done.
    cbn zeta. by rewrite Htargets, Hsel. }
  split; [by rewrite Htargets, Hsel|]. split.
  - rewrite Hrun. unfold no_lock_message. by rewrite pluralize_lock.
  - by rewrite Hrun.
Qed.
End export_claims.

Section grouping_claim.
Context {R T : Type} `{EqDecision R}.

(** C7. The grouping is the left fold of the dictionary append over the
    selection stream, starting from the empty dictionary. Its keys are the
    locked resolves of the stream, each once, in the order in which they are
    first seen, and every key is mapped to the targets that selected it, in
    stream order. *)
Theorem selected_locks_fold_first_seen (stream : list (T * R)) :
  selected_locks stream =
    fold_left
      (λ d '(target, locked_resolve), defaultdict_append d locked_resolve target)
      stream []
  ∧ selected_locks stream =
      (λ r, (r, (filter (λ p, p.2 = r) stream).*1)) <$> first_seen (stream.*2)
  ∧ NoDup (selected_locks stream).*1
  ∧ (∀ r, r ∈ (selected_locks stream).*1 ↔ r ∈ stream.*2)
  ∧ (∀ stream' target r,
       stream = stream' ++ [(target, r)] →
       (selected_locks stream).*1 =
         if decide (r ∈ stream'.*2) then (selected_locks stream').*1
         else (selected_locks stream').*1 ++ [r]).
Proof.
  split; [done|]. split; [apply selected_locks_grouping|].
  split; [|split].
  - rewrite selected_locks_keys. apply first_seen_NoDup.
  - intros r. rewrite selected_locks_keys. apply first_seen_elem_of.
  - intros stream' target r ->.
    rewrite !selected_locks_keys, fmap_app. apply first_seen_snoc.
Qed.
End grouping_claim.

Section create_claims.
Context {Requirement Target LockedResolve : Type}.
Context `{!LockedResolveLike LockedResolve} `{!TargetLike Target}.
Context `{!Repr ExportFormat.Value}.
Implicit Types c : Collaborators (Requirement := Requirement)
                     (Target := Target) (LockedResolve := LockedResolve).
Implicit Types options : Options.t.

(** C4. When a local project is among the parsed requirements, [create]
    returns an error with an empty trace: [resolver.download] is not called,
    and the outcome is the same whatever the resolver would do. The message
    gives the number of local projects and ends with the lines of the
    listing, separated by line feeds, one line per local project, in input
    order: line [i] (from 0) carries the index [i + 1] and the path of the
    [i]-th local project. *)
Theorem create_rejects_local_projects c options project :
  LocalProject project ∈
    parse_requirements c (Options.requirement_configuration options)
      (PipConfiguration.network_configuration (Options.pip_configuration options)) →
  let local_projects :=
    local_projects_of
      (parse_requirements c (Options.requirement_configuration options)
         (PipConfiguration.network_configuration (Options.pip_configuration options))) in
  ∃ entries : list string,
    run (_create c options) =
      (Returned (Error (
         "Cannot create a lock for local project requirements. Given "
         +:+ str (length local_projects) +:+ ":" +:+ LF
         +:+ String.concat LF entries)),
       [])
    ∧ (∀ request, Download request ∉ (run (_create c options)).2)
    ∧ (∀ c', parse_requirements c' = parse_requirements c →
             run (_create c' options) = run (_create c options))
    ∧ project ∈ local_projects
    ∧ length entries = length local_projects
    ∧ (∀ i p,
         local_projects !! i = Some p →
         entries !! i = Some (str (S i) +:+ ".) " +:+ path p)).
Proof.
  intros Hin local_projects.
  apply local_projects_of_elem_of in Hin. fold local_projects in Hin.
  destruct local_projects as [|p ps] eqn:Hlocal; [by apply elem_of_nil in Hin|].
  exists ((λ '(index, project), str index +:+ ".) " +:+ path project)
            <$> enumerate 1 (p :: ps)).
  rewrite (create_run_rejected c options p ps Hlocal).
  split; [done|]. split; [|split; [|split; [|split]]].
  - intros request. apply not_elem_of_nil.
  - intros c' Hparse. apply create_run_rejected.
    by rewrite Hparse.
  - done.
  - by rewrite length_fmap, length_enumerate.
  - intros i p' Hi. by rewrite (enumerate_lines_lookup _ _ i p').
Qed.

(** C5. When no parsed requirement is a local project, [create] returns [Ok]
    exactly when [resolver.download] returns; and then the document handed to
    the JSON dump has the parsed requirement objects as its requirements, the
    parsed constraint objects as its constraints, both in parse order, and
    the locked resolves of the download, in the order of the download. *)
Theorem create_succeeds_iff_download_succeeds c options requirements :
  parse_requirements c (Options.requirement_configuration options)
    (PipConfiguration.network_configuration (Options.pip_configuration options))
  = Parsed <$> requirements →
  let request :=
    download_kwargs c (Options.requirement_configuration options)
      (Options.pip_configuration options)
      (PipConfiguration.network_configuration (Options.pip_configuration options))
      (Options.target_configuration options)
      {| style := Options.style options |} in
  ((∃ trace, run (_create c options) = (Returned Ok, trace))
   ↔ (∃ downloaded, resolver_download c request = inr downloaded))
  ∧ (∀ downloaded,
       resolver_download c request = inr downloaded →
       ∃ lf,
         run (_create c options) =
           (Returned Ok, [Download request; OpenOutput; DumpJson lf; CloseOutput])
         ∧ Lockfile.requirements lf = requirements
         ∧ Lockfile.constraints lf =
             requirement <$>
               parse_constraints c (Options.requirement_configuration options)
                 (PipConfiguration.network_configuration
                    (Options.pip_configuration options))
         ∧ Lockfile.locked_resolves lf = Downloaded.locked_resolves downloaded).
Proof.
  intros Hparse request.
  pose proof (create_run_resolved c options) as Hrun. cbn zeta in Hrun.
  rewrite Hparse, local_projects_of_Parsed, requirements_of_Parsed in Hrun.
  specialize (Hrun eq_refl). fold request in Hrun.
  split.
  - rewrite Hrun. destruct (resolver_download c request) as [message|downloaded].
    + split; [intros [trace Heq]|intros [downloaded Heq]]; discriminate.
    + split; eauto.
  - intros downloaded Hdownload. rewrite Hrun, Hdownload.
    eexists. split; [reflexivity|]. by cbn.
Qed.
End create_claims.

(** * The claims at the concrete invocation *)

Section witnesses.
Import Fixture.

(** C1 at a document that stores the linux resolve only, for two linux
    targets. *)
Lemma export_single_resolve_emitted_witness :
  run (_export (collaborators [] [linux] true)
         (options ExportFormat.PIP "lock.json"
            ["cp39-linux_x86_64"; "cp310-linux_x86_64"]))
  = (Returned Ok,
     [LoadLockfile "lock.json"; OpenOutput; EmitRequirements linux; CloseOutput]).
Proof.
  refine (proj2 (export_single_resolve_emitted
                   (collaborators [] [linux] true)
                   (options ExportFormat.PIP "lock.json"
                      ["cp39-linux_x86_64"; "cp310-linux_x86_64"])
                   applies_to "lock.json" (document [linux]) linux
                   eq_refl eq_refl eq_refl eq_refl eq_refl _ _)).
  - discriminate.
  - intros target Hin.
    repeat (apply elem_of_cons in Hin as [->|Hin]; [reflexivity|]).
    by apply elem_of_nil in Hin.
Defined.

(** C2 at the example of the specification: one linux and one macosx
    target against a document that stores both resolves. The whole message
    is spelled out. *)
Lemma export_many_resolves_error_witness :
  run (_export (collaborators [] [linux; macosx] true)
         (options ExportFormat.PIP "lock.json"
            ["cp39-linux_x86_64"; "cp310-macosx_x86_64"]))
  = (Returned (Error
"Only a single lock can be exported in the 'pip' format.
There were 2 locks stored in lock.json that were applicable for the selected targets:
1.) linux_x86_64: ['cp39-linux_x86_64']
2.) macosx_x86_64: ['cp310-macosx_x86_64']"),
     [LoadLockfile "lock.json"]).
Proof.
  destruct (export_many_resolves_error
              (collaborators [] [linux; macosx] true)
              (options ExportFormat.PIP "lock.json"
                 ["cp39-linux_x86_64"; "cp310-macosx_x86_64"])
              "lock.json" (document [linux; macosx]) linux macosx
              eq_refl eq_refl eq_refl)
    as (entries & Hrun & _ & Hlen & _ & _ & Hentries).
  - vm_compute. apply list_elem_of_here.
  - vm_compute. apply list_elem_of_further, list_elem_of_here.
  - discriminate.
  - rewrite Hrun.
    rewrite (list_of_two entries _ _ Hlen
               (proj2 (Hentries 0 linux ["cp39-linux_x86_64"] eq_refl))
               (proj2 (Hentries 1 macosx ["cp310-macosx_x86_64"] eq_refl))).
    reflexivity.
Defined.

(** C3 at two targets of a platform the document has no resolve for. The
    whole message is spelled out. *)
Lemma export_no_applicable_lock_error_witness :
  run (_export (collaborators [] [linux] true)
         (options ExportFormat.PIP "lock.json"
            ["cp39-win_amd64"; "cp310-win_amd64"]))
  = (Returned (Error
"Of the 1 lock stored in lock.json, none were applicable for the selected targets:
1.) cp39-win_amd64
2.) cp310-win_amd64"),
     [LoadLockfile "lock.json"]).
Proof.
  destruct (export_no_applicable_lock_error
              (collaborators [] [linux] true)
              (options ExportFormat.PIP "lock.json"
                 ["cp39-win_amd64"; "cp310-win_amd64"])
              "lock.json" (document [linux])
              eq_refl eq_refl eq_refl eq_refl)
    as (entries & Hrun & _ & Hlen & Hentries).
  rewrite Hrun.
  rewrite (list_of_two entries _ _ Hlen
             (Hentries 0 "cp39-win_amd64" eq_refl)
             (Hentries 1 "cp310-win_amd64" eq_refl)).
  reflexivity.
Defined.
(** C4 at four parsed requirements, the second and the fourth of which are
    local projects; the resolver would have succeeded. The whole message is
    spelled out. *)
Lemma create_rejects_local_projects_witness :
  run (_create
         (collaborators
            [Parsed "requests"; LocalProject {| path := "./vendored/ansicolors" |};
             Parsed "attrs"; LocalProject {| path := "../tools" |}]
            [linux] true)
         (options ExportFormat.PIP "lock.json" ["cp39-linux_x86_64"]))
  = (Returned (Error
"Cannot create a lock for local project requirements. Given 2:
1.) ./vendored/ansicolors
2.) ../tools"),
     []).
Proof.
  destruct (create_rejects_local_projects
              (collaborators
                 [Parsed "requests"; LocalProject {| path := "./vendored/ansicolors" |};
                  Parsed "attrs"; LocalProject {| path := "../tools" |}]
                 [linux] true)
              (options ExportFormat.PIP "lock.json" ["cp39-linux_x86_64"])
              {| path := "../tools" |})
    as (entries & Hrun & _ & _ & _ & Hlen & Hentries).
  - cbn. do 3 apply list_elem_of_further. apply list_elem_of_here.
  - rewrite Hrun.
    rewrite (list_of_two entries _ _ Hlen
               (Hentries 0 {| path := "./vendored/ansicolors" |} eq_refl)
               (Hentries 1 {| path := "../tools" |} eq_refl)).
    reflexivity.
Defined.

(** C5 at two parsed requirements and a resolver that succeeds: the document
    has the two requirements, the parsed constraint and the two locked
    resolves of the download. *)
Lemma create_succeeds_iff_download_succeeds_witness :
  ∃ request lf,
    run (_create (collaborators [Parsed "requests"; Parsed "attrs"]
                    [linux; macosx] true)
           (options ExportFormat.PIP "lock.json" ["cp39-linux_x86_64"]))
    = (Returned Ok, [Download request; OpenOutput; DumpJson lf; CloseOutput])
    ∧ Lockfile.requirements lf = ["requests"; "attrs"]
    ∧ Lockfile.constraints lf = ["setuptools<60"]
    ∧ Lockfile.locked_resolves lf = [linux; macosx].
Proof.
  destruct (create_succeeds_iff_download_succeeds
              (collaborators [Parsed "requests"; Parsed "attrs"]
                 [linux; macosx] true)
              (options ExportFormat.PIP "lock.json" ["cp39-linux_x86_64"])
              ["requests"; "attrs"] eq_refl)
    as [_ Hdoc].
  destruct (Hdoc {| Downloaded.locked_resolves := [linux; macosx] |} eq_refl)
    as (lf & Hrun & Hreqs & Hcons & Hlocks).
  eexists _, lf. split; [exact Hrun|]. by split; [|split].
Defined.

(** C6 at the format pep-665 and a path that does not hold a lock file. *)
Lemma export_unsupported_format_before_load_witness :
  run (_export (collaborators [] [linux] true)
         (options ExportFormat.PEP_665 "missing.json" ["cp39-linux_x86_64"]))
  = (Returned (Error "Only the 'pip' lock format is supported currently."), []).
Proof.
  refine (proj1 (export_unsupported_format_before_load
                   (collaborators [] [linux] true)
                   (options ExportFormat.PEP_665 "missing.json"
                      ["cp39-linux_x86_64"]) _)).
  discriminate.
Defined.

(** C8 at a path whose content is not a lock file. *)
Lemma export_parse_error_verbatim_witness :
  run (_export (collaborators [] [linux] true)
         (options ExportFormat.PIP "broken.json" ["cp39-linux_x86_64"]))
  = (Returned (Error "The lock file is not valid JSON"),
     [LoadLockfile "broken.json"]).
Proof.
  exact (export_parse_error_verbatim
           (collaborators [] [linux] true)
           (options ExportFormat.PIP "broken.json" ["cp39-linux_x86_64"])
           "broken.json" {| parse_error_message := "The lock file is not valid JSON" |}
           eq_refl eq_refl eq_refl).
Defined.

(** C10 at a document with two stored resolves and no target. *)
Lemma export_no_targets_error_witness :
  run (_export (collaborators [] [linux; macosx] true)
         (options ExportFormat.PIP "lock.json" []))
  = (Returned (Error (
       "Of the 2 locks stored in lock.json, none were applicable for the "
       +:+ "selected targets:" +:+ LF)),
     [LoadLockfile "lock.json"]).
Proof.
  exact (proj1 (proj2 (export_no_targets_error
                         (collaborators [] [linux; macosx] true)
                         (options ExportFormat.PIP "lock.json" [])
                         applies_to "lock.json" (document [linux; macosx])
                         eq_refl eq_refl eq_refl eq_refl eq_refl))).
Defined.

(** C7 at a stream of five pairs over three locked resolves. *)
Lemma selected_locks_fold_first_seen_witness :
  selected_locks
    [("cp39-linux_x86_64", linux); ("cp39-macosx_x86_64", macosx);
     ("cp310-linux_x86_64", linux); ("cp310-macosx_x86_64", macosx)]
  = [(linux, ["cp39-linux_x86_64"; "cp310-linux_x86_64"]);
     (macosx, ["cp39-macosx_x86_64"; "cp310-macosx_x86_64"])].
Proof.
  rewrite (proj1 (proj2 (selected_locks_fold_first_seen _))).
  reflexivity.
Defined.

(** C9 at the second example of the specification: two linux targets
    against a document that stores both resolves. *)
Lemma export_no_partial_success_witness :
  ∃ lockfile_path lf r ts,
    lockfile_load (collaborators [] [linux; macosx] true) lockfile_path = inr lf
    ∧ selected_locks
        (select_applicable applies_to lf
           ["cp39-linux_x86_64"; "cp310-linux_x86_64"])
      = [(r, ts)]
    ∧ ([LoadLockfile "lock.json"; OpenOutput; EmitRequirements linux; CloseOutput]
         : list (@Event string PinnedResolve))
      = [LoadLockfile lockfile_path; OpenOutput; EmitRequirements r; CloseOutput].
Proof.
  exact (export_no_partial_success
           (collaborators [] [linux; macosx] true)
           (options ExportFormat.PIP "lock.json"
              ["cp39-linux_x86_64"; "cp310-linux_x86_64"])).
Defined.
End witnesses.

(** * Further properties of the grouping loop *)

Section grouping_invariants.
Context {R T : Type} `{EqDecision R}.
Implicit Types d : list (R * list T).
Implicit Types stream : list (T * R).

Lemma defaultdict_append_keys d k (v : T) :
  (defaultdict_append d k v).*1 =
    if decide (k ∈ d.*1) then d.*1 else d.*1 ++ [k].
Proof.
  induction d as [|[k' vs] d IH]; cbn.
  - by rewrite decide_False by apply not_elem_of_nil.
  - destruct (decide (k' = k)) as [->|Hne]; cbn.
    + by rewrite decide_True by apply list_elem_of_here.
    + rewrite IH. destruct (decide (k ∈ d.*1)) as [Hin|Hnin].
      * by rewrite decide_True by (by apply list_elem_of_further).
      * rewrite decide_False; [done|].
        rewrite elem_of_cons. intros [->|Hin]; [done|by apply Hnin].
Qed.

Lemma defaultdict_append_pairs d k (v : T) :
  mapping_pairs (defaultdict_append d k v) ≡ₚ mapping_pairs d ++ [(v, k)].
Proof.
  unfold mapping_pairs. induction d as [|[k' vs] d IH]; cbn; [done|].
  destruct (decide (k' = k)) as [->|Hne]; cbn.
  - rewrite fmap_app, <-!app_assoc. apply Permutation_app_head.
    cbn. apply Permutation_cons_append.
  - rewrite IH. by rewrite app_assoc.
Qed.

Lemma first_seen_length_1 (l : list R) :
  length (first_seen l) = 1 ↔ l ≠ [] ∧ ∃ r, ∀ x, x ∈ l → x = r.
Proof.
  split.
  - intros Hlen. destruct (first_seen l) as [|r [|r' keys]] eqn:Hkeys;
      try discriminate Hlen.
    split; [intros ->; discriminate Hkeys|].
    exists r. intros x Hx. apply (proj2 (first_seen_elem_of l x)) in Hx.
    rewrite Hkeys in Hx. by apply list_elem_of_singleton in Hx.
  - intros [Hne [r Hall]].
    pose proof (first_seen_NoDup l) as Hnd.
    assert (∀ x, x ∈ first_seen l → x = r) as Hall'.
    { intros x Hx. by apply Hall, first_seen_elem_of. }
    destruct l as [|x l]; [done|].
    destruct (first_seen (x :: l)) as [|a [|b keys]] eqn:Hkeys;
      [discriminate Hkeys|done|].
    exfalso. apply NoDup_cons in Hnd as [Hnotin _]. apply Hnotin.
    rewrite (Hall' a) by apply list_elem_of_here.
    rewrite <-(Hall' b) by apply list_elem_of_further, list_elem_of_here.
    apply list_elem_of_here.
Qed.

Lemma targets_selecting_seen (r : R) stream :
  r ∈ stream.*2 → targets_selecting r stream ≠ [].
Proof.
  intros Hin. apply list_elem_of_fmap_1 in Hin as ([t r'] & Heq & Hin).
  cbn in Heq. subst r.
  unfold targets_selecting. intros Hnil%fmap_nil_inv.
  assert ((t, r') ∈ filter (λ p : T * R, p.2 = r') stream) as Hfil
    by (by apply list_elem_of_filter).
  rewrite Hnil in Hfil. by apply elem_of_nil in Hfil.
Qed.

(** X1. Nothing is lost or invented by the grouping: read back group by
    group, the mapping holds exactly the pairs of the stream, each as often
    as the stream has it. *)
Theorem selected_locks_pairs_permutation stream :
  mapping_pairs (selected_locks stream) ≡ₚ stream.
Proof.
  induction stream as [|[t r] stream IH] using rev_ind; [done|].
  rewrite selected_locks_snoc, defaultdict_append_pairs. by rewrite IH.
Qed.

(** X2. No key of the grouping has an empty target list: a key only enters
    the dictionary together with the target that selected it. *)
Theorem selected_locks_groups_nonempty stream r ts :
  (r, ts) ∈ selected_locks stream → ts ≠ [].
Proof.
  intros [Hin ->]%selected_locks_elem_of. by apply targets_selecting_seen.
Qed.

(** X3. The test [len(selected_locks) == 1] holds exactly when the stream is
    not empty and all its pairs name the same locked resolve. *)
Theorem selected_locks_length_1_iff stream :
  length (selected_locks stream) = 1
  ↔ stream ≠ [] ∧ ∃ r, ∀ t r', (t, r') ∈ stream → r' = r.
Proof.
  rewrite <-(length_fmap fst), selected_locks_keys, first_seen_length_1.
  split; intros [Hne [r Hall]]; (split; [|exists r]).
  - intros ->. by apply Hne.
  - intros t r' Hin. apply Hall.
    by apply (list_elem_of_fmap_2 snd _ (t, r')).
  - intros Hnil%fmap_nil_inv. by apply Hne.
  - intros x ([t r'] & -> & Hin)%list_elem_of_fmap_1. by eapply Hall.
Qed.

(** X9. [d[k].append(v)] leaves every other key alone: its entries are
    neither added, removed nor changed. The keys stay in place, with [k]
    added at the end when it is new, and the list of [k] is its former list,
    or the empty list when [k] is new, followed by [v]. *)
Theorem defaultdict_append_isolated d k (v : T) :
  NoDup d.*1 →
  NoDup (defaultdict_append d k v).*1
  ∧ (defaultdict_append d k v).*1 =
      (if decide (k ∈ d.*1) then d.*1 else d.*1 ++ [k])
  ∧ (∀ k' ts, k' ≠ k → (k', ts) ∈ defaultdict_append d k v ↔ (k', ts) ∈ d)
  ∧ (∀ ts', (k, ts') ∈ defaultdict_append d k v ↔
       ∃ ts, ts' = ts ++ [v]
             ∧ if decide (k ∈ d.*1) then (k, ts) ∈ d else ts = []).
Proof.
  intros Hnd. split; [|split; [apply defaultdict_append_keys|split]].
  - rewrite defaultdict_append_keys. case_decide as Hin; [done|].
    apply NoDup_app. split; [done|]. split; [|apply NoDup_singleton].
    intros x Hx ->%list_elem_of_singleton. by apply Hin.
  - intros k' ts Hne. clear Hnd.
    induction d as [|[k0 vs] d IH]; cbn.
    + rewrite list_elem_of_singleton. split; [|by intros ?%elem_of_nil].
      intros [= -> ->]. done.
    + destruct (decide (k0 = k)) as [->|Hne0]; rewrite !elem_of_cons.
      * split; (intros [[= -> ->]|Hin]; [done|by right]).
      * by rewrite IH.
  - intros ts'. induction d as [|[k0 vs] d IH].
    + cbn. rewrite list_elem_of_singleton. split.
      * intros [= ->]. by exists [].
      * intros (ts & -> & ->). done.
    + rewrite fmap_cons in Hnd. apply NoDup_cons in Hnd as [Hk0 Hnd].
      specialize (IH Hnd). cbn [defaultdict_append fst] in *.
      rewrite fmap_cons. cbn [fst].
      destruct (decide (k0 = k)) as [->|Hne0].
      * destruct (decide (k ∈ k :: d.*1)) as [_|Hn];
          [|exfalso; apply Hn, list_elem_of_here].
        split.
        -- intros [[= ->]|Hin]%elem_of_cons.
           ++ exists vs. split; [done|]. apply list_elem_of_here.
           ++ exfalso. apply Hk0.
              by apply (list_elem_of_fmap_2 fst _ (k, ts')).
        -- intros (ts & -> & Hts). apply elem_of_cons. left.
           apply elem_of_cons in Hts as [[= ->]|Hin]; [done|].
           exfalso. apply Hk0. by apply (list_elem_of_fmap_2 fst _ (k, ts)).
      * destruct (decide (k ∈ d.*1)) as [Hin|Hnin].
        -- destruct (decide (k ∈ k0 :: d.*1)) as [_|Hn];
             [|exfalso; by apply Hn, list_elem_of_further].
           split.
           ++ intros [[= ? ?]|Hts]%elem_of_cons; [done|].
              apply IH in Hts as (ts & -> & Hts).
              exists ts. split; [done|]. by apply list_elem_of_further.
           ++ intros (ts & -> & [[= ? ?]|Hts]%elem_of_cons); [done|].
              apply list_elem_of_further, IH. by exists ts.
        -- destruct (decide (k ∈ k0 :: d.*1)) as [[->|Hin]%elem_of_cons|_];
             [done|by exfalso; apply Hnin|].
           split.
           ++ intros [[= ? ?]|Hts]%elem_of_cons; [done|].
              by apply IH in Hts.
           ++ intros Hts. apply list_elem_of_further. by apply IH.
Qed.
End grouping_invariants.

(** * Further properties of the commands *)

Section command_outcomes.
Context {Requirement Target LockedResolve : Type}.
Context `{!LockedResolveLike LockedResolve} `{!TargetLike Target}.
Context `{!Repr ExportFormat.Value}.
Implicit Types c : Collaborators (Requirement := Requirement)
                     (Target := Target) (LockedResolve := LockedResolve).
Implicit Types options : Options.t.
Implicit Types lf : Lockfile.t Requirement LockedResolve.
Implicit Types parsed : list (ParsedRequirement Requirement).

(** X4. On a loaded document [export] returns [Ok] with the requirements of
    [r] emitted exactly when the selection stream is not empty and every one
    of its pairs names [r]. Requested targets that the stream does not
    mention do not count. *)
Theorem export_ok_iff_single_resolve c options lockfile_path lf r :
  Options.format options = ExportFormat.PIP →
  Options.lockfile options = [lockfile_path] →
  lockfile_load c lockfile_path = inr lf →
  let stream :=
    Lockfile_select c lf (unique_targets c (Options.target_configuration options)) in
  run (_export c options) =
    (Returned Ok,
     [LoadLockfile lockfile_path; OpenOutput; EmitRequirements r; CloseOutput])
  ↔ stream ≠ [] ∧ ∀ t r', (t, r') ∈ stream → r' = r.
Proof.
  intros Hfmt Hpath Hload stream.
  rewrite (export_run_loaded c options lockfile_path [] lf) by done.
  cbn zeta. fold stream.
  pose proof (selected_locks_keys stream) as Hkeys.
  pose proof (first_seen_NoDup (stream.*2)) as Hnd.
  assert (∀ x, x ∈ first_seen (stream.*2) → ∃ t, (t, x) ∈ stream) as Hback.
  { intros x Hx. apply (proj1 (first_seen_elem_of _ _)) in Hx.
    apply list_elem_of_fmap_1 in Hx as ([t x'] & Heq & Hin).
    cbn in Heq. subst x'. by exists t. }
  destruct (selected_locks stream) as [|[r0 ts] [|[r1 ts1] groups]] eqn:Hgroups;
    cbn in Hkeys; rewrite <-Hkeys in Hnd, Hback.
  - apply selected_locks_nil_inv in Hgroups. split; [discriminate|].
    by intros [Hne _].
  - split.
    + intros [= <-]. split.
      * intros Hnil. rewrite Hnil in Hgroups. discriminate Hgroups.
      * intros t r' Hin.
        assert (r' ∈ first_seen (stream.*2)) as Hr'.
        { apply first_seen_elem_of.
          by apply (list_elem_of_fmap_2 snd _ (t, r')). }
        rewrite <-Hkeys in Hr'. by apply list_elem_of_singleton in Hr'.
    + intros [_ Hall].
      destruct (Hback r0) as [t Hin]; [apply list_elem_of_here|].
      by rewrite (Hall t r0 Hin).
  - split; [discriminate|]. intros [_ Hall]. exfalso.
    destruct (Hback r0) as [t0 Hin0]; [apply list_elem_of_here|].
    destruct (Hback r1) as [t1 Hin1];
      [apply list_elem_of_further, list_elem_of_here|].
    apply NoDup_cons in Hnd as [Hnotin _]. apply Hnotin.
    rewrite (Hall t0 r0 Hin0), <-(Hall t1 r1 Hin1). apply list_elem_of_here.
Qed.


(** X7. When [create] returns [Ok], the document it dumps records the
    configuration the download ran under: the same resolver version and
    prerelease, transitivity, build and wheel flags as the download request.
    The request asks for lock data only ([dest=None]), uses the cache
    [PEX_ROOT] and carries the lock style of the options; the document is
    stamped with the tool version. *)
Theorem create_document_matches_request c options request lf :
  run (_create c options) =
    (Returned Ok, [Download request; OpenOutput; DumpJson lf; CloseOutput]) →
  Lockfile.resolver_version lf = DownloadRequest.resolver_version request
  ∧ Lockfile.allow_prereleases lf = DownloadRequest.allow_prereleases request
  ∧ Lockfile.transitive lf = DownloadRequest.transitive request
  ∧ Lockfile.allow_builds lf = DownloadRequest.build request
  ∧ Lockfile.allow_wheels lf = DownloadRequest.use_wheel request
  ∧ Lockfile.pex_version lf = __version__ c
  ∧ DownloadRequest.dest request = None
  ∧ DownloadRequest.cache request = PEX_ROOT c
  ∧ DownloadRequest.lock_configuration request
    = {| style := Options.style options |}.
Proof.
  destruct (local_projects_of
              (parse_requirements c (Options.requirement_configuration options)
                 (PipConfiguration.network_configuration
                    (Options.pip_configuration options))))
    as [|project projects] eqn:Hlocal.
  - pose proof (create_run_resolved c options Hlocal) as Hrun.
    cbn zeta in Hrun. rewrite Hrun.
    destruct (resolver_download c _) as [message|downloaded];
      [discriminate|].
    intros [= <- <-]. by cbn.
  - by rewrite (create_run_rejected c options project projects Hlocal).
Qed.

(** X8. The partition loop of [create] drops nothing and keeps the order:
    the two lists together are as long as the parsed sequence, and each of
    them, put back under its wrapper, is a subsequence of the parsed
    sequence. *)
Theorem partition_parsed_preserves parsed :
  length (partition_parsed parsed).1 + length (partition_parsed parsed).2
  = length parsed
  ∧ Parsed <$> (partition_parsed parsed).1 `sublist_of` parsed
  ∧ LocalProject <$> (partition_parsed parsed).2 `sublist_of` parsed.
Proof.
  rewrite partition_parsed_spec. cbn [fst snd].
  unfold requirements_of, local_projects_of.
  induction parsed as [|[project|requirement] parsed (Hlen & Hreqs & Hlocals)];
    cbn; [done|..].
  - split; [lia|]. split; [by apply sublist_cons|by apply sublist_skip].
  - split; [lia|]. split; [by apply sublist_skip|by apply sublist_cons].
Qed.
End command_outcomes.

(** * The further properties at the concrete invocation *)

Section further_witnesses.
Import Fixture.

(** X1 at a stream of four pairs over two locked resolves. *)
Lemma selected_locks_pairs_permutation_witness :
  mapping_pairs
    (selected_locks
       [("cp39-linux_x86_64", linux); ("cp39-macosx_x86_64", macosx);
        ("cp310-linux_x86_64", linux); ("cp310-macosx_x86_64", macosx)])
  ≡ₚ [("cp39-linux_x86_64", linux); ("cp39-macosx_x86_64", macosx);
      ("cp310-linux_x86_64", linux); ("cp310-macosx_x86_64", macosx)].
Proof. exact (selected_locks_pairs_permutation _). Defined.

(** X2 at the linux group of a stream of three pairs. *)
Lemma selected_locks_groups_nonempty_witness :
  ["cp39-linux_x86_64"; "cp310-linux_x86_64"] ≠ [].
Proof.
  apply (selected_locks_groups_nonempty
           [("cp39-linux_x86_64", linux); ("cp39-macosx_x86_64", macosx);
            ("cp310-linux_x86_64", linux)]
           linux).
  vm_compute. apply list_elem_of_here.
Defined.

(** X3 at a stream of two pairs that both name the linux resolve. *)
Lemma selected_locks_length_1_iff_witness :
  length (selected_locks
            [("cp39-linux_x86_64", linux); ("cp310-linux_x86_64", linux)])
  = 1.
Proof.
  apply (proj2 (selected_locks_length_1_iff _)).
  split; [discriminate|]. exists linux. intros t r' Hin.
  repeat (apply elem_of_cons in Hin as [[= _ ->]|Hin]; [reflexivity|]).
  by apply elem_of_nil in Hin.
Defined.

(** X4 at a linux target and a target of a platform the document has no
    resolve for: the stream has the linux pair only, and the export
    succeeds. *)
Lemma export_ok_iff_single_resolve_witness :
  run (_export (collaborators [] [linux; macosx] true)
         (options ExportFormat.PIP "lock.json"
            ["cp39-linux_x86_64"; "cp39-win_amd64"]))
  = (Returned Ok,
     [LoadLockfile "lock.json"; OpenOutput; EmitRequirements linux; CloseOutput]).
Proof.
  apply (proj2 (export_ok_iff_single_resolve
                  (collaborators [] [linux; macosx] true)
                  (options ExportFormat.PIP "lock.json"
                     ["cp39-linux_x86_64"; "cp39-win_amd64"])
                  "lock.json" (document [linux; macosx]) linux
                  eq_refl eq_refl eq_refl)).
  change (Lockfile_select _ _ _) with [("cp39-linux_x86_64", linux)].
  split; [discriminate|]. intros t r' Hin.
  apply list_elem_of_singleton in Hin. by injection Hin as _ ->.
Defined.


(** X7 at two parsed requirements and a resolver that succeeds. *)
Lemma create_document_matches_request_witness :
  ∃ request lf,
    run (_create (collaborators [Parsed "requests"; Parsed "attrs"] [linux] true)
           (options ExportFormat.PIP "lock.json" ["cp39-linux_x86_64"]))
    = (Returned Ok, [Download request; OpenOutput; DumpJson lf; CloseOutput])
    ∧ Lockfile.allow_builds lf = DownloadRequest.build request
    ∧ Lockfile.allow_wheels lf = DownloadRequest.use_wheel request
    ∧ DownloadRequest.dest request = None.
Proof.
  eexists _, _. split; [lazy; reflexivity|].
  match goal with
  | |- Lockfile.allow_builds ?lf = DownloadRequest.build ?request ∧ _ =>
      destruct (create_document_matches_request
                  (collaborators [Parsed "requests"; Parsed "attrs"] [linux] true)
                  (options ExportFormat.PIP "lock.json" ["cp39-linux_x86_64"])
                  request lf eq_refl)
        as (_ & _ & _ & Hbuild & Hwheel & _ & Hdest & _)
  end.
  exact (conj Hbuild (conj Hwheel Hdest)).
Defined.

(** X8 at four parsed requirements, two of which are local projects. *)
Lemma partition_parsed_preserves_witness :
  let parsed : list (ParsedRequirement string) :=
    [Parsed "requests"; LocalProject {| path := "./vendored/ansicolors" |};
     Parsed "attrs"; LocalProject {| path := "../tools" |}] in
  length (partition_parsed parsed).1 + length (partition_parsed parsed).2 = 4
  ∧ Parsed <$> ["requests"; "attrs"] `sublist_of` parsed
  ∧ LocalProject <$> [{| path := "./vendored/ansicolors" |}; {| path := "../tools" |}]
      `sublist_of` parsed.
Proof. exact (partition_parsed_preserves _). Defined.

(** X9 at a dictionary with the linux key, appended to under the macosx
    key. *)
Lemma defaultdict_append_isolated_witness :
  (defaultdict_append [(linux, ["cp39-linux_x86_64"])] macosx
     "cp39-macosx_x86_64").*1
  = [linux; macosx].
Proof.
  exact (proj1 (proj2 (defaultdict_append_isolated
                         [(linux, ["cp39-linux_x86_64"])] macosx
                         "cp39-macosx_x86_64" (NoDup_singleton linux)))).
Defined.
End further_witnesses.
